(** * Client-side fetch actions of the dashboard: line readings and unit details

    A shallow embedding of [src/client/app/actions/lineReadings.ts] and of the
    units-details action creator, together with the small part of the
    Redux / promise runtime these thunks run on.

    - [Thunk]        : the runtime: a store, [dispatch], network calls,
                       promises created by [.then] and [Promise.all], and the
                       later delivery of network replies.
    - [LineReadings] : [shouldFetchMeterLineReadings],
                       [shouldFetchGroupLineReadings], the four action
                       creators, the two batch thunks and
                       [fetchNeededLineReadings].
    - [Units]        : [fetchUnitsDetails]. *)

From stdpp Require Import gmap strings list pretty.
From Stdlib Require Import Ascii.

Set Default Proof Using "Type".

(* ===================================================================== *)
(** ** The thunk runtime *)
(* ===================================================================== *)

Module Thunk.
Section Runtime.

Context {State Action Request Response Err : Type}.

(** The store's reducer.  It belongs to the store, not to the action
    creators; it is the only thing that ever replaces the store's state. *)
Variable reducer : State -> Action -> State.

(** What the network answers to a call. *)
Inductive Outcome :=
| Resolves (r : Response)
| Rejects (e : Err).

(** Everything observable from outside, in the order it happens. *)
Inductive Event :=
| Dispatched (a : Action)
| Issued (c : nat) (r : Request)
| Replied (c : nat) (o : Outcome).

(** [calls] counts the network calls issued so far; the [c]-th call is
    identified by [c]. *)
Record World := mkWorld {
  store : State;
  log : list Event;
  calls : nat
}.

(** One synchronous turn of the event loop. *)
Definition M (A : Type) : Type := World -> A * World.

Definition ret {A} (a : A) : M A := fun w => (a, w).

Definition bind {A B} (m : M A) (k : A -> M B) : M B :=
  fun w => let (a, w') := m w in k a w'.

Definition getState : M State := fun w => (store w, w).

(** [dispatch(action)] on a plain action: the store reduces it and the action
    is returned.  ([dispatch(thunk)] under redux-thunk calls the thunk with
    [dispatch] and [getState] and returns its result; in this embedding that
    is running the thunk's [M] computation.) *)
Definition dispatch (a : Action) : M Action :=
  fun w => (a, mkWorld (reducer (store w) a) (log w ++ [Dispatched a]) (calls w)).

(** Issue a network call; the result identifies the promise of its reply. *)
Definition issue (r : Request) : M nat :=
  fun w => (calls w, mkWorld (store w) (log w ++ [Issued (calls w) r]) (S (calls w))).

Inductive Settlement (A : Type) :=
| Pending
| Fulfilled (a : A)
| Rejected (e : Err).
Global Arguments Pending {A}.
Global Arguments Fulfilled {A} a.
Global Arguments Rejected {A} e.

(** The promise [call.then(onFulfilled)]: no rejection handler is attached,
    so a rejection of the call passes through unchanged. *)
Record Promise (A : Type) := mkPromise {
  awaits : nat;
  onFulfilled : Response -> M A;
  settlement : Settlement A
}.
Global Arguments mkPromise {A} awaits onFulfilled settlement.
Global Arguments awaits {A} p.
Global Arguments onFulfilled {A} p.
Global Arguments settlement {A} p.

Definition then_ {A} (c : nat) (k : Response -> M A) : Promise A :=
  mkPromise c k Pending.

(** The reply to call [c] reaches promise [p]. *)
Definition settle {A} (c : nat) (o : Outcome) (p : Promise A) : M (Promise A) :=
  match settlement p with
  | Pending =>
      if Nat.eqb (awaits p) c then
        match o with
        | Resolves r =>
            bind (onFulfilled p r) (fun a =>
            ret (mkPromise (awaits p) (onFulfilled p) (Fulfilled a)))
        | Rejects e =>
            ret (mkPromise (awaits p) (onFulfilled p) (Rejected e))
        end
      else ret p
  | _ => ret p
  end.

Fixpoint settle_each {A} (c : nat) (o : Outcome) (ps : list (Promise A))
  : M (list (Promise A)) :=
  match ps with
  | [] => ret []
  | p :: ps' =>
      bind (settle c o p) (fun p' =>
      bind (settle_each c o ps') (fun ps'' =>
      ret (p' :: ps'')))
  end.

(** [Promise.all]: fulfilled with all the values once every input is
    fulfilled (at once for no input), rejected with the reason of the first
    input that rejects. *)
Fixpoint all_values {A} (ps : list (Promise A)) : Settlement (list A) :=
  match ps with
  | [] => Fulfilled []
  | p :: ps' =>
      match settlement p with
      | Rejected e => Rejected e
      | Pending =>
          match all_values ps' with
          | Rejected e => Rejected e
          | _ => Pending
          end
      | Fulfilled a =>
          match all_values ps' with
          | Fulfilled l => Fulfilled (a :: l)
          | s => s
          end
      end
  end.

Record All (A : Type) := mkAll {
  inputs : list (Promise A);
  combined : Settlement (list A)
}.
Global Arguments mkAll {A} inputs combined.
Global Arguments inputs {A} a.
Global Arguments combined {A} a.

Definition Promise_all {A} (ps : list (Promise A)) : All A :=
  mkAll ps (all_values ps).

(** The network answers call [c] with [o]: the answer is logged, the promise
    waiting for it runs its continuation, and a combined promise that is
    still pending looks at its inputs again. *)
Definition reply {A} (c : nat) (o : Outcome) (a : All A) : M (All A) :=
  fun w =>
    let w1 := mkWorld (store w) (log w ++ [Replied c o]) (calls w) in
    let (ps, w2) := settle_each c o (inputs a) w1 in
    (mkAll ps (match combined a with
               | Pending => all_values ps
               | s => s
               end), w2).

Fixpoint replies {A} (sched : list (nat * Outcome)) (a : All A) : M (All A) :=
  match sched with
  | [] => ret a
  | (c, o) :: sched' => bind (reply c o a) (replies sched')
  end.

(** The notifications in a log, in order. *)
Definition dispatched (l : list Event) : list Action :=
  omap (fun e => match e with Dispatched a => Some a | _ => None end) l.

(** The network calls in a log, in order. *)
Definition issued (l : list Event) : list (nat * Request) :=
  omap (fun e => match e with Issued c r => Some (c, r) | _ => None end) l.

(** *** Vocabulary for the statements below *)

(** A computation only ever appends to the log. *)
Definition monotone {A} (m : M A) : Prop :=
  forall w, exists l, log (snd (m w)) = log w ++ l.

(** What a rejection of call [c] with reason [e] does to a promise. *)
Definition rejected_by {A} (c : nat) (e : Err) (p : Promise A) : Promise A :=
  match settlement p with
  | Pending =>
      if Nat.eqb (awaits p) c
      then mkPromise (awaits p) (onFulfilled p) (Rejected e)
      else p
  | _ => p
  end.

(** A promise whose continuation only ever appends to the log. *)
Definition tame {A} (p : Promise A) : Prop :=
  forall r, monotone (onFulfilled p r).

(** The same promise, possibly settled since. *)
Definition same_promise {A} (p p' : Promise A) : Prop :=
  awaits p' = awaits p /\ onFulfilled p' = onFulfilled p.

Definition is_pending {A} (p : Promise A) : Prop := settlement p = Pending.

(** A combined promise agrees with its inputs, unless an earlier rejection
    has already settled it. *)
Definition coherent {A} (a : All A) : Prop :=
  combined a = all_values (inputs a) \/ exists e, combined a = Rejected e.

(** Every input whose call has not been answered yet ([cs] lists the
    answered calls) is still pending. *)
Definition unanswered {A} (cs : list nat) (ps : list (Promise A)) : Prop :=
  Forall (fun p => awaits p ∉ cs -> is_pending p) ps.

(** An event of the synchronous turn: a notification or a network call. *)
Definition is_effect (e : Event) : Prop :=
  match e with
  | Dispatched _ | Issued _ _ => True
  | Replied _ _ => False
  end.

End Runtime.

Global Arguments Outcome : clear implicits.
Global Arguments Event : clear implicits.
Global Arguments World : clear implicits.
Global Arguments M : clear implicits.
Global Arguments Promise : clear implicits.
Global Arguments All : clear implicits.
Global Arguments Settlement : clear implicits.

Declare Scope thunk_scope.
Delimit Scope thunk_scope with thunk.

Notation "'let*' x ':=' m 'in' k" := (bind m (fun x => k))
  (at level 10, x name, m at level 100, k at level 200, only parsing)
  : thunk_scope.
Notation "m ';;' k" := (bind m (fun _ => k))
  (at level 100, k at level 200, only parsing, right associativity)
  : thunk_scope.

End Thunk.

(* ===================================================================== *)
(** ** actions/lineReadings.ts *)
(* ===================================================================== *)

Module LineReadings.
Import Thunk.

Section Actions.

(** [TimeInterval] (common/TimeInterval) and [LineReadings] (utils/types) are
    imported by the source file; only [timeInterval.toString()], the canonical
    interval string, is used of the former. *)
Context {TimeInterval LineReadings Err : Type}.
Variable toString : TimeInterval -> string.

(** An entry of the readings cache: [isFetching], and the readings once a
    reply has been merged in. *)
Record ReadingsEntry := mkEntry {
  isFetching : bool;
  payload : option LineReadings
}.

(** The slices of the Redux state the file reads:
    [state.readings.line.byMeterID], [state.readings.line.byGroupID],
    [state.graph.selectedMeters] and [state.graph.selectedGroups].  The two
    caches are objects indexed by ID, then by canonical interval string. *)
Record LineState := mkLine {
  byMeterID : gmap Z (gmap string ReadingsEntry);
  byGroupID : gmap Z (gmap string ReadingsEntry)
}.

Record ReadingsState := mkReadings { line : LineState }.

Record GraphState := mkGraph {
  selectedMeters : list Z;
  selectedGroups : list Z
}.

Record State := mkState {
  readings : ReadingsState;
  graph : GraphState
}.

Inductive Action :=
| REQUEST_GROUP_LINE_READINGS (groupIDs : list Z) (timeInterval : TimeInterval)
| RECEIVE_GROUP_LINE_READINGS (groupIDs : list Z) (timeInterval : TimeInterval)
    (readings : LineReadings)
| REQUEST_METER_LINE_READINGS (meterIDs : list Z) (timeInterval : TimeInterval)
| RECEIVE_METER_LINE_READINGS (meterIDs : list Z) (timeInterval : TimeInterval)
    (readings : LineReadings).

(** [axios.get(url, { params })] and the [data] field of its response. *)
Inductive Request :=
| AxiosGet (url : string) (params : list (string * string)).

Record Response := mkResponse { data : LineReadings }.

Variable reducer : State -> Action -> State.

Definition shouldFetchGroupLineReadings
  (state : State) (groupID : Z) (timeInterval : TimeInterval) : bool :=
  let timeIntervalIndex := toString timeInterval in
  match byGroupID (line (readings state)) !! groupID with
  | None => true
  | Some readingsForID =>
      match readingsForID !! timeIntervalIndex with
      | None => true
      | Some readingsForTimeInterval => negb (isFetching readingsForTimeInterval)
      end
  end.

Definition shouldFetchMeterLineReadings
  (state : State) (meterID : Z) (timeInterval : TimeInterval) : bool :=
  let timeIntervalIndex := toString timeInterval in
  match byMeterID (line (readings state)) !! meterID with
  | None => true
  | Some readingsForID =>
      match readingsForID !! timeIntervalIndex with
      | None => true
      | Some readingsForTimeInterval => negb (isFetching readingsForTimeInterval)
      end
  end.

(** The cache entry of an ID for an interval, when there is one. *)
Definition entryFor (cache : gmap Z (gmap string ReadingsEntry))
  (id : Z) (timeInterval : TimeInterval) : option ReadingsEntry :=
  match cache !! id with
  | None => None
  | Some readingsForID => readingsForID !! toString timeInterval
  end.

Definition requestMeterLineReadings
  (meterIDs : list Z) (timeInterval : TimeInterval) : Action :=
  REQUEST_METER_LINE_READINGS meterIDs timeInterval.

Definition receiveMeterLineReadings
  (meterIDs : list Z) (timeInterval : TimeInterval) (readings : LineReadings)
  : Action :=
  RECEIVE_METER_LINE_READINGS meterIDs timeInterval readings.

Definition requestGroupLineReadings
  (groupIDs : list Z) (timeInterval : TimeInterval) : Action :=
  REQUEST_GROUP_LINE_READINGS groupIDs timeInterval.

Definition receiveGroupLineReadings
  (groupIDs : list Z) (timeInterval : TimeInterval) (readings : LineReadings)
  : Action :=
  RECEIVE_GROUP_LINE_READINGS groupIDs timeInterval readings.

(** [ids.join(',')]: the IDs are integers, printed in decimal. *)
Definition join (sep : string) (ids : list Z) : string :=
  String.concat sep (map pretty ids).

(** A string without a comma. *)
Fixpoint comma_free (s : string) : bool :=
  match s with
  | EmptyString => true
  | String a s' => negb (Ascii.eqb a ","%char) && comma_free s'
  end.

Local Abbreviation M := (M State Action Request Response Err).
Local Abbreviation Promise := (Promise State Action Request Response Err).
Local Abbreviation All := (All State Action Request Response Err).
Local Open Scope thunk_scope.

Definition fetchMeterLineReadings
  (meterIDs : list Z) (timeInterval : TimeInterval) : M (Promise Action) :=
  dispatch reducer (requestMeterLineReadings meterIDs timeInterval) ;;
  let stringifiedIDs := join "," meterIDs in
  let* c := issue (AxiosGet ("/api/readings/line/meters/" +:+ stringifiedIDs)
                            [("timeInterval", toString timeInterval)]) in
  ret (then_ c (fun response =>
    dispatch reducer
      (receiveMeterLineReadings meterIDs timeInterval (data response)))).

Definition fetchGroupLineReadings
  (groupIDs : list Z) (timeInterval : TimeInterval) : M (Promise Action) :=
  dispatch reducer (requestGroupLineReadings groupIDs timeInterval) ;;
  let stringifiedIDs := join "," groupIDs in
  let* c := issue (AxiosGet ("/api/readings/line/groups/" +:+ stringifiedIDs)
                            [("timeInterval", toString timeInterval)]) in
  ret (then_ c (fun response =>
    dispatch reducer
      (receiveGroupLineReadings groupIDs timeInterval (data response)))).

(** The two filters of [fetchNeededLineReadings], named after its local
    constants. *)
Definition meterIDsToFetchForLine
  (state : State) (timeInterval : TimeInterval) : list Z :=
  List.filter (fun id => shouldFetchMeterLineReadings state id timeInterval)
              (selectedMeters (graph state)).

Definition groupIDsToFetchForLine
  (state : State) (timeInterval : TimeInterval) : list Z :=
  List.filter (fun id => shouldFetchGroupLineReadings state id timeInterval)
              (selectedGroups (graph state)).

Definition fetchNeededLineReadings (timeInterval : TimeInterval)
  : M (All Action) :=
  let* state := getState in
  let promises := [] in
  let meterIDs := meterIDsToFetchForLine state timeInterval in
  let* promises :=
    if (0 <? length meterIDs)%nat
    then let* p := fetchMeterLineReadings meterIDs timeInterval in
         ret (promises ++ [p])
    else ret promises in
  let groupIDs := groupIDsToFetchForLine state timeInterval in
  let* promises :=
    if (0 <? length groupIDs)%nat
    then let* p := fetchGroupLineReadings groupIDs timeInterval in
         ret (promises ++ [p])
    else ret promises in
  ret (Promise_all promises).

(** A reducer that answers a request action by marking the requested IDs
    as being fetched for the interval of the action, and that keeps the
    selection and whatever is already being fetched for that interval. *)
Definition marks_requests : Prop :=
  forall (s : State) (ids : list Z) (ti : TimeInterval),
    let sm := reducer s (REQUEST_METER_LINE_READINGS ids ti) in
    let sg := reducer s (REQUEST_GROUP_LINE_READINGS ids ti) in
    graph sm = graph s /\ graph sg = graph s
    /\ (forall id, id ∈ ids \/ shouldFetchMeterLineReadings s id ti = false ->
                   shouldFetchMeterLineReadings sm id ti = false)
    /\ (forall id, shouldFetchGroupLineReadings s id ti = false ->
                   shouldFetchGroupLineReadings sm id ti = false)
    /\ (forall id, id ∈ ids \/ shouldFetchGroupLineReadings s id ti = false ->
                   shouldFetchGroupLineReadings sg id ti = false)
    /\ (forall id, shouldFetchMeterLineReadings s id ti = false ->
                   shouldFetchMeterLineReadings sg id ti = false).

End Actions.
End LineReadings.

(* ===================================================================== *)
(** ** The units-details action creator *)
(* ===================================================================== *)

Module Units.
Import Thunk.

Section Actions.

(** [State] is whatever the store holds: the thunk never asks for it.
    [UnitData] comes from types/redux/unit. *)
Context {State UnitData Err : Type}.

(** [ActionType.RequestUnitsDetails] and [ActionType.ReceiveUnitsDetails]. *)
Inductive Action :=
| RequestUnitsDetails
| ReceiveUnitsDetails (data : list UnitData).

(** Modelled from the spec: [unitsApi.details] (utils/api) is "a single
    unparameterized network call to list all unit descriptors"; its reply
    is the list itself. *)
Inductive Request :=
| UnitsApiDetails.

Variable reducer : State -> Action -> State.

Definition requestUnitsDetails : Action := RequestUnitsDetails.

Definition receiveUnitsDetails (data : list UnitData) : Action :=
  ReceiveUnitsDetails data.

(** An [async] function runs up to its first [await] in the calling turn;
    the rest is the continuation of the awaited promise, and a rejection of
    the awaited promise rejects the function's own promise. *)
Local Open Scope thunk_scope.

Definition fetchUnitsDetails
  : M State Action Request (list UnitData) Err
      (Promise State Action Request (list UnitData) Err unit) :=
  dispatch reducer requestUnitsDetails ;;
  let* c := issue UnitsApiDetails in
  ret (then_ c (fun unitsDetails =>
    dispatch reducer (receiveUnitsDetails unitsDetails) ;;
    ret tt)).

End Actions.
End Units.

(* ===================================================================== *)
(** ** Concrete stores for the examples *)
(* ===================================================================== *)

Module Scenario.
Import Thunk LineReadings.

(** Intervals are given by their canonical string, readings by a list of
    (timestamp, value) points, and the store keeps its state whatever is
    dispatched. *)
Definition interval := string.
Definition points := list (Z * Z).

Definition toString (ti : interval) : string := ti.

Definition keep (s : @State points) (_ : @Action interval points) : @State points := s.

Definition resolved : @ReadingsEntry points :=
  mkEntry false (Some [(0, 10); (60, 12)]%Z).

Definition inFlight : @ReadingsEntry points := mkEntry true None.

(** Meters 1, 2 and 3 are selected; meter 2 has its readings for "X". *)
Definition oneResolved : @State points :=
  mkState
    (mkReadings (mkLine {[ 2%Z := {[ "X" := resolved ]} ]} ∅))
    (mkGraph [1; 2; 3]%Z []).

(** Meters 1 and 3 and group 7 are selected; meter 3 is being fetched
    for "X". *)
Definition oneInFlight : @State points :=
  mkState
    (mkReadings (mkLine {[ 3%Z := {[ "X" := inFlight ]} ]} ∅))
    (mkGraph [1; 3]%Z [7]%Z).

(** Meter 3 and group 7 are selected, both being fetched for "X". *)
Definition allInFlight : @State points :=
  mkState
    (mkReadings (mkLine {[ 3%Z := {[ "X" := inFlight ]} ]}
                        {[ 7%Z := {[ "X" := inFlight ]} ]}))
    (mkGraph [3]%Z [7]%Z).

(** [oneInFlight] with meters and groups exchanged. *)
Definition oneInFlightGroup : @State points :=
  mkState
    (mkReadings (mkLine ∅ {[ 3%Z := {[ "X" := inFlight ]} ]}))
    (mkGraph [7]%Z [1; 3]%Z).

(** A store that marks the requested IDs as being fetched. *)
Definition markFetching (ti : interval) (ids : list Z)
  (cache : gmap Z (gmap string (@ReadingsEntry points)))
  : gmap Z (gmap string (@ReadingsEntry points)) :=
  foldr (fun id c => <[id := <[toString ti := inFlight]> (default ∅ (c !! id))]> c)
        cache ids.

Definition marking (s : @State points) (a : @Action interval points)
  : @State points :=
  match a with
  | REQUEST_METER_LINE_READINGS ids ti =>
      mkState
        (mkReadings (mkLine (markFetching ti ids (byMeterID (line (readings s))))
                            (byGroupID (line (readings s)))))
        (graph s)
  | REQUEST_GROUP_LINE_READINGS ids ti =>
      mkState
        (mkReadings (mkLine (byMeterID (line (readings s)))
                            (markFetching ti ids (byGroupID (line (readings s))))))
        (graph s)
  | _ => s
  end.

Definition start (s : @State points)
  : World (@State points) (@Action interval points) Request (@Response points) string :=
  mkWorld s [] 0.

End Scenario.

(* ===================================================================== *)
(** ** Facts about the runtime *)
(* ===================================================================== *)

Module ThunkFacts.
Import Thunk.

Section Facts.

Context {State Action Request Response Err : Type}.
Variable reducer : State -> Action -> State.

Local Abbreviation World := (World State Action Request Response Err).
Local Abbreviation M := (M State Action Request Response Err).
Local Abbreviation Promise := (Promise State Action Request Response Err).
Local Abbreviation All := (All State Action Request Response Err).
Local Abbreviation Outcome := (Outcome Response Err).

Section Settle.
Context {A : Type}.
Implicit Types (p : Promise A) (ps : list (Promise A)) (a : All A)
               (w : World) (c : nat) (o : Outcome).

Lemma settle_awaits c o p w : awaits (settle c o p w).1 = awaits p.
Proof.
  unfold settle. destruct (settlement p); try done.
  destruct (awaits p =? c); try done.
  destruct o; try done.
  unfold bind, ret. by destruct (onFulfilled p r w).
Qed.

Lemma settle_onFulfilled c o p w :
  onFulfilled (settle c o p w).1 = onFulfilled p.
Proof.
  unfold settle. destruct (settlement p); try done.
  destruct (awaits p =? c); try done.
  destruct o; try done.
  unfold bind, ret. by destruct (onFulfilled p r w).
Qed.

Lemma settle_same_promise c o p w : same_promise p (settle c o p w).1.
Proof. split; [apply settle_awaits | apply settle_onFulfilled]. Qed.

Lemma settle_resolves c r p w :
  is_pending p -> awaits p = c ->
  settle c (Resolves r) p w =
    (mkPromise c (onFulfilled p) (Fulfilled (onFulfilled p r w).1),
     (onFulfilled p r w).2).
Proof.
  unfold is_pending, settle. intros -> <-. rewrite Nat.eqb_refl.
  unfold bind, ret. by destruct (onFulfilled p r w).
Qed.

Lemma settle_other c o p w : awaits p ≠ c -> settle c o p w = (p, w).
Proof.
  intros Hne. unfold settle. destruct (settlement p); try done.
  by apply Nat.eqb_neq in Hne as ->.
Qed.

Lemma settle_settled c o p w : ¬ is_pending p -> settle c o p w = (p, w).
Proof.
  unfold is_pending, settle. intros Hp. by destruct (settlement p).
Qed.

Lemma settle_rejects c e p w : settle c (Rejects e) p w = (rejected_by c e p, w).
Proof.
  unfold settle, rejected_by. destruct (settlement p); try done.
  by destruct (awaits p =? c).
Qed.

Lemma settle_each_rejects c e ps w :
  settle_each c (Rejects e) ps w = (map (rejected_by c e) ps, w).
Proof.
  revert w. induction ps as [|p ps IH]; intros w; simpl; first done.
  unfold bind. rewrite settle_rejects, IH. done.
Qed.

Lemma settle_each_cons c o p ps w :
  settle_each c o (p :: ps) w =
    let (p', w1) := settle c o p w in
    let (ps', w2) := settle_each c o ps w1 in
    (p' :: ps', w2).
Proof.
  simpl. unfold bind, ret. destruct (settle c o p w) as [p' w1].
  by destruct (settle_each c o ps w1).
Qed.

Lemma settle_each_same_promise c o ps w :
  Forall2 same_promise ps (settle_each c o ps w).1.
Proof.
  revert w. induction ps as [|p ps IH]; intros w; first by constructor.
  rewrite settle_each_cons.
  pose proof (settle_same_promise c o p w) as Hp.
  destruct (settle c o p w) as [p' w1]. specialize (IH w1).
  destruct (settle_each c o ps w1) as [ps' w2]. by constructor.
Qed.

Lemma settle_each_absent c o ps w :
  c ∉ map awaits ps -> settle_each c o ps w = (ps, w).
Proof.
  revert w. induction ps as [|p ps IH]; intros w Hc; first done.
  rewrite settle_each_cons. simpl in Hc.
  apply not_elem_of_cons in Hc as [Hne Hc].
  rewrite settle_other by done. rewrite IH by done. done.
Qed.

Lemma settle_each_settled c o ps w :
  Forall (fun p => ¬ is_pending p) ps -> settle_each c o ps w = (ps, w).
Proof.
  intros H. revert w. induction H as [|p ps Hp _ IH]; intros w; first done.
  rewrite settle_each_cons, settle_settled, IH; done.
Qed.

(** Only the promise that waits for the answered call can change. *)
Lemma settle_each_unanswered cs c o ps w :
  unanswered cs ps -> unanswered (cs ++ [c]) (settle_each c o ps w).1.
Proof.
  unfold unanswered. intros H. revert w.
  induction H as [|p ps Hp _ IH]; intros w; first by constructor.
  rewrite settle_each_cons.
  destruct (decide (awaits p = c)) as [Heq|Hne].
  - pose proof (settle_awaits c o p w) as Ha.
    destruct (settle c o p w) as [p' w1]. specialize (IH w1).
    destruct (settle_each c o ps w1) as [ps' w2]. simpl in *.
    constructor; last done. intros Hn. exfalso. apply Hn. set_solver.
  - rewrite settle_other by done. specialize (IH w).
    destruct (settle_each c o ps w) as [ps' w2]. simpl in *.
    constructor; last done. intros Hn. apply Hp. set_solver.
Qed.

(** *** [Promise.all] *)

Lemma all_values_fulfilled ps l :
  all_values ps = Fulfilled l -> Forall (fun p => ¬ is_pending p) ps.
Proof.
  revert l. induction ps as [|p ps IH]; intros l H; first by constructor.
  simpl in H. unfold is_pending.
  destruct (settlement p) eqn:Hp; try done.
  - by destruct (all_values ps).
  - destruct (all_values ps) eqn:Hps; try done.
    constructor; [by rewrite Hp | by eapply IH].
Qed.

Lemma all_values_pending ps :
  all_values ps = Pending ->
  Forall (fun p => forall e, settlement p ≠ Rejected e) ps.
Proof.
  induction ps as [|p ps IH]; intros H; first by constructor.
  simpl in H. destruct (settlement p) eqn:Hp; try done.
  - destruct (all_values ps) eqn:Hps; try done.
    + constructor; [by rewrite Hp | by apply IH].
    + constructor; first by rewrite Hp.
      clear -Hps. revert a Hps.
      induction ps as [|q qs IHq]; intros l Hl; first by constructor.
      simpl in Hl. destruct (settlement q) eqn:Hq; try done.
      * by destruct (all_values qs).
      * destruct (all_values qs) eqn:Hqs; try done.
        constructor; [by rewrite Hq | by eapply IHq].
  - destruct (all_values ps) eqn:Hps; try done.
    constructor; [by rewrite Hp | by apply IH].
Qed.

(** Rejecting a pending input of a combined promise that no rejection has
    reached yet rejects the combined promise with the same reason. *)
Lemma all_values_rejected_by c e ps :
  Forall (fun p => forall e', settlement p ≠ Rejected e') ps ->
  (exists p, p ∈ ps /\ awaits p = c /\ is_pending p) ->
  all_values (map (rejected_by c e) ps) = Rejected e.
Proof.
  intros Hall. induction Hall as [|q qs Hq Hqs IH]; intros (p & Hin & Hc & Hp).
  { by apply elem_of_nil in Hin. }
  simpl. unfold rejected_by at 1.
  apply elem_of_cons in Hin as [<-|Hin].
  - rewrite Hp. apply Nat.eqb_eq in Hc as ->. done.
  - assert (all_values (map (rejected_by c e) qs) = Rejected e) as Hrest
      by (apply IH; eauto).
    destruct (settlement q) eqn:Eq; simpl.
    + destruct (awaits q =? c); simpl; [done | by rewrite Eq, Hrest].
    + by rewrite Eq, Hrest.
    + by destruct (Hq e0).
Qed.

Lemma Promise_all_coherent ps : coherent (Promise_all ps).
Proof. by left. Qed.

Lemma reply_inputs c o a w :
  inputs (reply c o a w).1 =
    (settle_each c o (inputs a)
       (mkWorld (store w) (log w ++ [Replied c o]) (calls w))).1.
Proof.
  unfold reply. by destruct (settle_each c o (inputs a) _).
Qed.

Lemma reply_coherent c o a w : coherent a -> coherent (reply c o a w).1.
Proof.
  unfold coherent, reply. intros [Heq|[e He]].
  - destruct (combined a) eqn:Hc.
    + destruct (settle_each c o (inputs a) _) as [ps w2]. by left.
    + symmetry in Heq. apply all_values_fulfilled in Heq as Hall.
      rewrite settle_each_settled by done. simpl. by left.
    + destruct (settle_each c o (inputs a) _) as [ps w2]. right. by eexists.
  - rewrite He. destruct (settle_each c o (inputs a) _) as [ps w2].
    right. by eexists.
Qed.

Lemma rejected_by_awaits c e p : awaits (rejected_by c e p) = awaits p.
Proof.
  unfold rejected_by. destruct (settlement p); try done.
  by destruct (awaits p =? c).
Qed.

Lemma rejected_by_pending c e p :
  is_pending p -> awaits p = c -> settlement (rejected_by c e p) = Rejected e.
Proof.
  unfold is_pending, rejected_by. intros -> <-. by rewrite Nat.eqb_refl.
Qed.

Lemma reply_rejects c e a w :
  reply c (Rejects e) a w =
    (mkAll (map (rejected_by c e) (inputs a))
           (match combined a with
            | Pending => all_values (map (rejected_by c e) (inputs a))
            | s => s
            end),
     mkWorld (store w) (log w ++ [Replied c (Rejects e)]) (calls w)).
Proof. unfold reply. by rewrite settle_each_rejects. Qed.

(** A rejection that reaches a pending input rejects the combined promise,
    unless an earlier rejection already did. *)
Lemma reply_rejects_combined c e a w :
  coherent a ->
  (exists p, p ∈ inputs a /\ awaits p = c /\ is_pending p) ->
  exists e', combined (reply c (Rejects e) a w).1 = Rejected e'
             /\ (combined a = Pending -> e' = e).
Proof.
  intros Hco Hex. rewrite reply_rejects. simpl.
  unfold coherent in Hco.
  destruct (combined a) eqn:Hc.
  - exists e. split; last done.
    destruct Hco as [Heq|[e' He']]; last done.
    apply all_values_rejected_by; last done.
    by apply all_values_pending.
  - exfalso. destruct Hco as [Heq|[e' He']]; last done.
    symmetry in Heq. apply all_values_fulfilled in Heq.
    destruct Hex as (p & Hin & _ & Hp).
    by eapply Forall_forall in Heq.
  - exists e0. done.
Qed.

(** The answer to a call runs the continuation of the one promise that
    waits for it, and nothing else. *)
Lemma settle_each_resolves c r ps1 p ps2 w :
  c ∉ map awaits ps1 -> c ∉ map awaits ps2 ->
  is_pending p -> awaits p = c ->
  settle_each c (Resolves r) (ps1 ++ p :: ps2) w =
    (ps1 ++ mkPromise c (onFulfilled p) (Fulfilled (onFulfilled p r w).1) :: ps2,
     (onFulfilled p r w).2).
Proof.
  intros H1 H2 Hp Hc. induction ps1 as [|q ps1 IH]; simpl app.
  - rewrite settle_each_cons, settle_resolves by done.
    by rewrite settle_each_absent.
  - simpl in H1. apply not_elem_of_cons in H1 as [Hne H1].
    rewrite settle_each_cons, settle_other by done.
    by rewrite IH.
Qed.

Lemma reply_resolves c r a ps1 p ps2 w :
  inputs a = ps1 ++ p :: ps2 ->
  c ∉ map awaits ps1 -> c ∉ map awaits ps2 ->
  is_pending p -> awaits p = c ->
  (reply c (Resolves r) a w).2 =
    (onFulfilled p r
       (mkWorld (store w) (log w ++ [Replied c (Resolves r)]) (calls w))).2.
Proof.
  intros Hin H1 H2 Hp Hc. unfold reply.
  rewrite Hin, settle_each_resolves by done. done.
Qed.

Lemma same_promise_inv p p' :
  same_promise p p' ->
  p' = mkPromise (awaits p) (onFulfilled p) (settlement p').
Proof. destruct p'. intros [Ha Hk]. simpl in *. by subst. Qed.

Lemma same_promise_trans p1 p2 p3 :
  same_promise p1 p2 -> same_promise p2 p3 -> same_promise p1 p3.
Proof. unfold same_promise. intros [-> ->] [-> ->]. done. Qed.

Lemma same_promises_trans ps1 ps2 ps3 :
  Forall2 same_promise ps1 ps2 -> Forall2 same_promise ps2 ps3 ->
  Forall2 same_promise ps1 ps3.
Proof.
  intros H12. revert ps3. induction H12; intros ps3 H23; inversion H23; subst.
  - constructor.
  - constructor; [by eapply same_promise_trans | by auto].
Qed.

(** The state of a combined promise after any sequence of replies. *)
Lemma replies_invariant sched cs a w :
  coherent a -> unanswered cs (inputs a) ->
  let a' := (replies sched a w).1 in
  coherent a' /\
  Forall2 same_promise (inputs a) (inputs a') /\
  unanswered (cs ++ sched.*1) (inputs a').
Proof.
  revert cs a w. induction sched as [|[c o] sched IH]; intros cs a w Hco Hun.
  { simpl. rewrite app_nil_r. repeat split; try done.
    clear. induction (inputs a); by constructor. }
  simpl. unfold bind.
  pose proof (reply_coherent c o a w Hco) as Hco'.
  pose proof (reply_inputs c o a w) as Hin.
  destruct (reply c o a w) as [a1 w1]. simpl in Hco', Hin.
  destruct (IH (cs ++ [c]) a1 w1 Hco') as (H1 & H2 & H3).
  { rewrite Hin. by apply settle_each_unanswered. }
  split; first done. split.
  - eapply same_promises_trans; last exact H2.
    rewrite Hin. apply settle_each_same_promise.
  - by rewrite <- app_assoc in H3.
Qed.

End Settle.

(** *** The log only grows *)

Section Monotone.
Context {A : Type}.

Lemma monotone_ret (a : A) : monotone (ret a : M A).
Proof. intros w. exists []. simpl. by rewrite app_nil_r. Qed.

Lemma monotone_bind {B} (m : M A) (k : A -> M B) :
  monotone m -> (forall a, monotone (k a)) -> monotone (bind m k).
Proof.
  intros Hm Hk w. unfold bind. destruct (Hm w) as [l1 H1].
  destruct (m w) as [a w1]. destruct (Hk a w1) as [l2 H2].
  exists (l1 ++ l2). simpl in *. by rewrite H2, H1, app_assoc.
Qed.

Lemma monotone_settle c o (p : Promise A) :
  tame p -> monotone (settle c o p).
Proof.
  intros Hp w. unfold settle.
  destruct (settlement p); try by (exists []; rewrite app_nil_r).
  destruct (awaits p =? c); last by (exists []; rewrite app_nil_r).
  destruct o; last by (exists []; rewrite app_nil_r).
  unfold bind, ret. destruct (Hp r w) as [l Hl].
  destruct (onFulfilled p r w) as [a w1]. by exists l.
Qed.

End Monotone.

Lemma monotone_dispatch (a : Action) :
  monotone (dispatch reducer a : M Action).
Proof. intros w. by eexists. Qed.

Lemma monotone_issue (r : Request) :
  monotone (issue r : M nat).
Proof. intros w. by eexists. Qed.

Lemma monotone_settle_each {A} c o (ps : list (Promise A)) :
  Forall tame ps ->
  monotone (settle_each c o ps) /\
  forall w, Forall tame (settle_each c o ps w).1.
Proof.
  induction 1 as [|p ps Hp Hps [IH1 IH2]].
  { split; [apply (monotone_ret (A:=list (Promise A))) | by constructor]. }
  split.
  - simpl. apply monotone_bind; first by apply monotone_settle.
    intros p'. apply monotone_bind; first done.
    intros ps'. apply (monotone_ret (A:=list (Promise A))).
  - intros w. rewrite settle_each_cons.
    pose proof (settle_onFulfilled c o p w) as Hk.
    destruct (settle c o p w) as [p' w1]. specialize (IH2 w1).
    destruct (settle_each c o ps w1) as [ps' w2]. simpl in *.
    constructor; last done. unfold tame. rewrite Hk. apply Hp.
Qed.

(** Every reply is logged, after everything that was logged before the
    replies began. *)
Lemma replies_logged {A} sched (a : All A) w :
  Forall tame (inputs a) ->
  exists l, log (replies sched a w).2 = log w ++ l
            /\ Forall (fun co => Replied co.1 co.2 ∈ l) sched.
Proof.
  revert a w. induction sched as [|[c o] sched IH]; intros a w Ha.
  { exists []. simpl. by rewrite app_nil_r. }
  simpl. unfold bind.
  pose proof (reply_inputs c o a w) as Hin.
  destruct (monotone_settle_each c o (inputs a) Ha) as [Hm Ht].
  destruct (Hm (mkWorld (store w) (log w ++ [Replied c o]) (calls w)))
    as [l1 Hl1].
  specialize (Ht (mkWorld (store w) (log w ++ [Replied c o]) (calls w))).
  assert (log (reply c o a w).2 = log w ++ Replied c o :: l1) as Hlog.
  { unfold reply. destruct (settle_each c o (inputs a) _) as [ps w2].
    simpl in *. by rewrite Hl1, <- app_assoc. }
  destruct (reply c o a w) as [a1 w1]. simpl in *.
  destruct (IH a1 w1) as (l2 & Hl2 & Hall); first by rewrite Hin.
  exists (Replied c o :: l1 ++ l2). split.
  - rewrite Hl2, Hlog, <- app_assoc. done.
  - constructor; first by left.
    eapply Forall_impl; first exact Hall.
    intros co Hco. right. apply elem_of_app. by right.
Qed.

End Facts.
End ThunkFacts.

(* ===================================================================== *)
(** ** Facts about the line-readings actions *)
(* ===================================================================== *)

Module LineReadingsFacts.
Import Thunk ThunkFacts LineReadings.

Section Facts.

Context {TimeInterval LineReadings Err : Type}.
Variable toString : TimeInterval -> string.

Local Abbreviation State := (@State LineReadings).
Local Abbreviation Action := (@Action TimeInterval LineReadings).
Local Abbreviation Response := (@Response LineReadings).
Local Abbreviation World := (World State Action Request Response Err).
Local Abbreviation Promise := (Promise State Action Request Response Err).
Local Abbreviation All := (All State Action Request Response Err).

Variable reducer : State -> Action -> State.

Local Abbreviation shouldFetchMeterLineReadings :=
  (LineReadings.shouldFetchMeterLineReadings toString).
Local Abbreviation shouldFetchGroupLineReadings :=
  (LineReadings.shouldFetchGroupLineReadings toString).
Local Abbreviation meterIDsToFetchForLine :=
  (LineReadings.meterIDsToFetchForLine toString).
Local Abbreviation groupIDsToFetchForLine :=
  (LineReadings.groupIDsToFetchForLine toString).
Local Abbreviation fetchMeterLineReadings :=
  (LineReadings.fetchMeterLineReadings (Err:=Err) toString reducer).
Local Abbreviation fetchGroupLineReadings :=
  (LineReadings.fetchGroupLineReadings (Err:=Err) toString reducer).
Local Abbreviation fetchNeededLineReadings :=
  (LineReadings.fetchNeededLineReadings (Err:=Err) toString reducer).

Implicit Types (state : State) (w : World) (ti : TimeInterval)
               (id : Z) (ids : list Z).

(** *** The cache-lookup predicates *)

Lemma shouldFetchMeter_entryFor state id ti :
  shouldFetchMeterLineReadings state id ti =
    match entryFor toString (byMeterID (line (readings state))) id ti with
    | None => true
    | Some e => negb (isFetching e)
    end.
Proof.
  unfold LineReadings.shouldFetchMeterLineReadings, entryFor.
  by destruct (byMeterID (line (readings state)) !! id).
Qed.

Lemma shouldFetchGroup_entryFor state id ti :
  shouldFetchGroupLineReadings state id ti =
    match entryFor toString (byGroupID (line (readings state))) id ti with
    | None => true
    | Some e => negb (isFetching e)
    end.
Proof.
  unfold LineReadings.shouldFetchGroupLineReadings, entryFor.
  by destruct (byGroupID (line (readings state)) !! id).
Qed.

(** C2: each cache-lookup predicate answers [false] exactly when the cache
    holds an entry for the ID and the canonical interval string whose
    [isFetching] is [true]; without an entry for the pair it answers
    [true]. *)
Theorem shouldFetch_false_iff_fetching state id ti :
  (shouldFetchMeterLineReadings state id ti = false <->
     exists e, entryFor toString (byMeterID (line (readings state))) id ti = Some e
               /\ isFetching e = true)
  /\ (shouldFetchGroupLineReadings state id ti = false <->
     exists e, entryFor toString (byGroupID (line (readings state))) id ti = Some e
               /\ isFetching e = true)
  /\ (entryFor toString (byMeterID (line (readings state))) id ti = None ->
      shouldFetchMeterLineReadings state id ti = true)
  /\ (entryFor toString (byGroupID (line (readings state))) id ti = None ->
      shouldFetchGroupLineReadings state id ti = true).
Proof.
  rewrite shouldFetchMeter_entryFor, shouldFetchGroup_entryFor.
  repeat split.
  - destruct (entryFor _ (byMeterID _) id ti) as [e|]; last done.
    intros H. exists e. split; first done. by destruct (isFetching e).
  - intros (e & -> & ->). done.
  - destruct (entryFor _ (byGroupID _) id ti) as [e|]; last done.
    intros H. exists e. split; first done. by destruct (isFetching e).
  - intros (e & -> & ->). done.
  - by intros ->.
  - by intros ->.
Qed.

(** An ID whose entry for the interval is being fetched is left out of the
    batch; an ID whose entry is there and not being fetched is put in. *)
Lemma metersToFetch_spec state id ti :
  id ∈ meterIDsToFetchForLine state ti <->
  id ∈ selectedMeters (graph state)
  /\ match entryFor toString (byMeterID (line (readings state))) id ti with
     | None => True
     | Some e => isFetching e = false
     end.
Proof.
  unfold LineReadings.meterIDsToFetchForLine.
  rewrite !list_elem_of_In, filter_In, shouldFetchMeter_entryFor.
  destruct (entryFor _ _ id ti) as [e|].
  - destruct (isFetching e); simpl; split; intros [H1 H2]; done.
  - split; intros [H1 H2]; done.
Qed.

Lemma groupsToFetch_spec state id ti :
  id ∈ groupIDsToFetchForLine state ti <->
  id ∈ selectedGroups (graph state)
  /\ match entryFor toString (byGroupID (line (readings state))) id ti with
     | None => True
     | Some e => isFetching e = false
     end.
Proof.
  unfold LineReadings.groupIDsToFetchForLine.
  rewrite !list_elem_of_In, filter_In, shouldFetchGroup_entryFor.
  destruct (entryFor _ _ id ti) as [e|].
  - destruct (isFetching e); simpl; split; intros [H1 H2]; done.
  - split; intros [H1 H2]; done.
Qed.

(** C10: on equal cache slices the meter predicate and the group predicate
    give the same answer. *)
Theorem meter_group_predicates_agree (s1 s2 : State) id ti :
  byMeterID (line (readings s1)) = byGroupID (line (readings s2)) ->
  shouldFetchMeterLineReadings s1 id ti = shouldFetchGroupLineReadings s2 id ti.
Proof.
  intros Heq.
  unfold LineReadings.shouldFetchMeterLineReadings,
    LineReadings.shouldFetchGroupLineReadings.
  by rewrite Heq.
Qed.

(** *** The two batch thunks *)

Local Abbreviation metersGet ids ti :=
  (AxiosGet ("/api/readings/line/meters/" +:+ join "," ids)
            [("timeInterval", toString ti)]).
Local Abbreviation groupsGet ids ti :=
  (AxiosGet ("/api/readings/line/groups/" +:+ join "," ids)
            [("timeInterval", toString ti)]).
Local Abbreviation onMeters ids ti :=
  (fun response : Response =>
     dispatch (Request:=Request) (Response:=Response) (Err:=Err) reducer
       (receiveMeterLineReadings ids ti (data response))).
Local Abbreviation onGroups ids ti :=
  (fun response : Response =>
     dispatch (Request:=Request) (Response:=Response) (Err:=Err) reducer
       (receiveGroupLineReadings ids ti (data response))).

Lemma fetchMeters_run ids ti w :
  fetchMeterLineReadings ids ti w =
    (then_ (calls w) (onMeters ids ti),
     mkWorld (reducer (store w) (REQUEST_METER_LINE_READINGS ids ti))
             (log w ++ [Dispatched (REQUEST_METER_LINE_READINGS ids ti);
                        Issued (calls w) (metersGet ids ti)])
             (S (calls w))).
Proof.
  unfold LineReadings.fetchMeterLineReadings, bind, dispatch, issue, ret. simpl.
  by rewrite <- app_assoc.
Qed.

Lemma fetchGroups_run ids ti w :
  fetchGroupLineReadings ids ti w =
    (then_ (calls w) (onGroups ids ti),
     mkWorld (reducer (store w) (REQUEST_GROUP_LINE_READINGS ids ti))
             (log w ++ [Dispatched (REQUEST_GROUP_LINE_READINGS ids ti);
                        Issued (calls w) (groupsGet ids ti)])
             (S (calls w))).
Proof.
  unfold LineReadings.fetchGroupLineReadings, bind, dispatch, issue, ret. simpl.
  by rewrite <- app_assoc.
Qed.

(** *** The orchestrator's synchronous turn *)

Lemma positive_length ids : (0 <? length ids)%nat = bool_decide (ids ≠ []).
Proof. by destruct ids. Qed.

(** [LineReadings.fetchNeededLineReadings] takes one snapshot of the state, and both
    selections are filtered against that snapshot. *)
Lemma fetchNeeded_run ti w :
  let ms := meterIDsToFetchForLine (store w) ti in
  let gs := groupIDsToFetchForLine (store w) ti in
  let r1 := if bool_decide (ms ≠ [])
            then ([(fetchMeterLineReadings ms ti w).1],
                  (fetchMeterLineReadings ms ti w).2)
            else ([], w) in
  let r2 := if bool_decide (gs ≠ [])
            then (r1.1 ++ [(fetchGroupLineReadings gs ti r1.2).1],
                  (fetchGroupLineReadings gs ti r1.2).2)
            else r1 in
  fetchNeededLineReadings ti w = (Promise_all r2.1, r2.2).
Proof.
  intros ms gs. unfold LineReadings.fetchNeededLineReadings, bind, getState, ret.
  fold ms gs. rewrite !positive_length.
  destruct (bool_decide (ms ≠ [])), (bool_decide (gs ≠ []));
    cbn [fst snd app];
    repeat match goal with
           | |- context [fetchMeterLineReadings ?i ?t ?v] =>
               destruct (fetchMeterLineReadings i t v) as [? ?]; cbn [fst snd app]
           | |- context [fetchGroupLineReadings ?i ?t ?v] =>
               destruct (fetchGroupLineReadings i t v) as [? ?]; cbn [fst snd app]
           end; done.
Qed.

(** The events of the synchronous turn. *)
Lemma fetchNeeded_log ti w :
  let ms := meterIDsToFetchForLine (store w) ti in
  let gs := groupIDsToFetchForLine (store w) ti in
  log (fetchNeededLineReadings ti w).2 =
    log w
    ++ (if bool_decide (ms ≠ []) then
          [Dispatched (REQUEST_METER_LINE_READINGS ms ti);
           Issued (calls w) (metersGet ms ti)]
        else [])
    ++ (if bool_decide (gs ≠ []) then
          [Dispatched (REQUEST_GROUP_LINE_READINGS gs ti);
           Issued (if bool_decide (ms ≠ []) then S (calls w) else calls w)
                  (groupsGet gs ti)]
        else []).
Proof.
  intros ms gs. rewrite fetchNeeded_run. fold ms gs.
  destruct (bool_decide (ms ≠ [])), (bool_decide (gs ≠ [])); simpl;
    rewrite ?fetchMeters_run, ?fetchGroups_run; simpl;
    rewrite <- ?app_assoc, ?app_nil_r; done.
Qed.

Lemma fetchNeeded_inputs ti w :
  let ms := meterIDsToFetchForLine (store w) ti in
  let gs := groupIDsToFetchForLine (store w) ti in
  inputs (fetchNeededLineReadings ti w).1 =
    (if bool_decide (ms ≠ [])
     then [then_ (calls w) (onMeters ms ti)] else [])
    ++ (if bool_decide (gs ≠ [])
        then [then_ (if bool_decide (ms ≠ []) then S (calls w) else calls w)
                    (onGroups gs ti)]
        else []).
Proof.
  intros ms gs. rewrite fetchNeeded_run. fold ms gs.
  destruct (bool_decide (ms ≠ [])), (bool_decide (gs ≠ [])); simpl;
    rewrite ?fetchMeters_run, ?fetchGroups_run; done.
Qed.

Lemma fetchNeeded_pending ti w :
  Forall is_pending (inputs (fetchNeededLineReadings ti w).1).
Proof.
  rewrite fetchNeeded_inputs.
  destruct (bool_decide (_ ≠ [])), (bool_decide (_ ≠ []));
    repeat constructor.
Qed.

Lemma fetchNeeded_tame ti w :
  Forall tame (inputs (fetchNeededLineReadings ti w).1).
Proof.
  rewrite fetchNeeded_inputs.
  destruct (bool_decide (_ ≠ [])), (bool_decide (_ ≠ []));
    repeat constructor; intros r; apply monotone_dispatch.
Qed.

Lemma fetchNeeded_coherent ti w : coherent (fetchNeededLineReadings ti w).1.
Proof. rewrite fetchNeeded_run. simpl. apply Promise_all_coherent. Qed.

(** C3: one invocation issues at most two network calls: a GET to
    /api/readings/line/meters/ followed by the comma-joined meter IDs to
    fetch, when there are any, and a GET to /api/readings/line/groups/
    followed by the comma-joined group IDs to fetch, when there are any;
    both carry the canonical interval string as [timeInterval]. *)
Theorem at_most_two_batched_calls ti w :
  let ms := meterIDsToFetchForLine (store w) ti in
  let gs := groupIDsToFetchForLine (store w) ti in
  exists evs,
    log (fetchNeededLineReadings ti w).2 = log w ++ evs
    /\ (issued evs).*2 =
         (if bool_decide (ms ≠ []) then
            [AxiosGet ("/api/readings/line/meters/"
                       +:+ String.concat "," (map pretty ms))
                      [("timeInterval", toString ti)]]
          else [])
         ++ (if bool_decide (gs ≠ []) then
               [AxiosGet ("/api/readings/line/groups/"
                          +:+ String.concat "," (map pretty gs))
                         [("timeInterval", toString ti)]]
             else [])
    /\ length (issued evs) <= 2.
Proof.
  intros ms gs. eexists. split; first apply fetchNeeded_log.
  fold ms gs.
  destruct (bool_decide (ms ≠ [])), (bool_decide (gs ≠ [])); simpl;
    (split; [done | lia]).
Qed.

(** C4: in the synchronous turn the request-started notification of a batch,
    with exactly the IDs to fetch and the interval, comes immediately
    before the batch's network call; whatever the network answers
    afterwards (resolved or rejected, in whatever order) is logged after
    both. *)
Theorem request_started_before_call ti w sched :
  let ms := meterIDsToFetchForLine (store w) ti in
  let gs := groupIDsToFetchForLine (store w) ti in
  let turn :=
    (if bool_decide (ms ≠ []) then
       [Dispatched (REQUEST_METER_LINE_READINGS ms ti);
        Issued (calls w) (metersGet ms ti)]
     else [])
    ++ (if bool_decide (gs ≠ []) then
          [Dispatched (REQUEST_GROUP_LINE_READINGS gs ti);
           Issued (if bool_decide (ms ≠ []) then S (calls w) else calls w)
                  (groupsGet gs ti)]
        else []) in
  let run := fetchNeededLineReadings ti w in
  log run.2 = log w ++ turn
  /\ exists later,
       log (replies sched run.1 run.2).2 = log w ++ turn ++ later
       /\ Forall (fun co => Replied co.1 co.2 ∈ later) sched.
Proof.
  intros ms gs turn run.
  assert (log run.2 = log w ++ turn) as Hturn by apply fetchNeeded_log.
  split; first done.
  destruct (replies_logged sched run.1 run.2 (fetchNeeded_tame ti w))
    as (later & Hlater & Hall).
  exists later. split; last done.
  by rewrite Hlater, Hturn, <- app_assoc.
Qed.

(** C6: with nothing selected, or with no selected ID in need of fetching,
    the invocation leaves the world as it found it (no notification, no
    network call) and returns [Promise.all] of nothing, which is already
    fulfilled. *)
Theorem nothing_to_fetch ti w :
  (selectedMeters (graph (store w)) = []
   /\ selectedGroups (graph (store w)) = [])
  \/ (Forall (fun id => shouldFetchMeterLineReadings (store w) id ti = false)
             (selectedMeters (graph (store w)))
      /\ Forall (fun id => shouldFetchGroupLineReadings (store w) id ti = false)
                (selectedGroups (graph (store w)))) ->
  fetchNeededLineReadings ti w = (mkAll [] (Fulfilled []), w).
Proof.
  intros H.
  assert (meterIDsToFetchForLine (store w) ti = []
          /\ groupIDsToFetchForLine (store w) ti = []) as [Hm Hg].
  { unfold LineReadings.meterIDsToFetchForLine, LineReadings.groupIDsToFetchForLine.
    destruct H as [[-> ->]|[Hm Hg]]; first done.
    split.
    - induction Hm as [|id l Hid _ IH]; simpl; [done | by rewrite Hid].
    - induction Hg as [|id l Hid _ IH]; simpl; [done | by rewrite Hid]. }
  rewrite fetchNeeded_run, Hm, Hg. done.
Qed.

(** C9: the invocation reads one snapshot of the state and decides on it;
    its events are notifications and network calls only, the store changes
    only as the reducer answers the dispatched notifications, and both
    lists of IDs are those the predicates select on the snapshot. *)
Theorem orchestrator_only_reads_state ti w :
  let ms := meterIDsToFetchForLine (store w) ti in
  let gs := groupIDsToFetchForLine (store w) ti in
  exists evs,
    log (fetchNeededLineReadings ti w).2 = log w ++ evs
    /\ Forall is_effect evs
    /\ store (fetchNeededLineReadings ti w).2
         = fold_left reducer (dispatched evs) (store w)
    /\ calls (fetchNeededLineReadings ti w).2 = calls w + length (issued evs)
    /\ dispatched evs =
         (if bool_decide (ms ≠ [])
          then [REQUEST_METER_LINE_READINGS ms ti] else [])
         ++ (if bool_decide (gs ≠ [])
             then [REQUEST_GROUP_LINE_READINGS gs ti] else []).
Proof.
  intros ms gs. eexists. split; first apply fetchNeeded_log.
  rewrite fetchNeeded_run. fold ms gs.
  destruct (bool_decide (ms ≠ [])), (bool_decide (gs ≠ [])); simpl;
    rewrite ?fetchMeters_run, ?fetchGroups_run; simpl;
    (split; [repeat constructor | repeat split; lia]).
Qed.

(** *** Replies *)

Lemma fetchNeeded_replies ti w pre :
  let run := fetchNeededLineReadings ti w in
  let before := replies pre run.1 run.2 in
  coherent before.1
  /\ Forall2 same_promise (inputs run.1) (inputs before.1)
  /\ unanswered pre.*1 (inputs before.1).
Proof.
  intros run before.
  apply (replies_invariant pre [] run.1 run.2).
  - apply fetchNeeded_coherent.
  - unfold unanswered. eapply Forall_impl; first apply fetchNeeded_pending.
    by intros p Hp _.
Qed.

(** The inputs of the combined promise after any replies: the same
    promises, each still pending as long as its call is unanswered. *)
Lemma fetchNeeded_inputs_later ti w pre :
  let ms := meterIDsToFetchForLine (store w) ti in
  let gs := groupIDsToFetchForLine (store w) ti in
  let cg := if bool_decide (ms ≠ []) then S (calls w) else calls w in
  let run := fetchNeededLineReadings ti w in
  let before := replies pre run.1 run.2 in
  exists sm sg,
    inputs before.1 =
      (if bool_decide (ms ≠ [])
       then [mkPromise (calls w) (onMeters ms ti) sm] else [])
      ++ (if bool_decide (gs ≠ [])
          then [mkPromise cg (onGroups gs ti) sg] else [])
    /\ (calls w ∉ pre.*1 -> sm = Pending)
    /\ (cg ∉ pre.*1 -> sg = Pending).
Proof.
  intros ms gs cg run before.
  destruct (fetchNeeded_replies ti w pre) as (_ & Hsame & Hun).
  fold run before in Hsame, Hun.
  unfold run in Hsame. rewrite fetchNeeded_inputs in Hsame.
  fold run ms gs cg in Hsame. unfold unanswered in Hun. unfold cg in *.
  destruct (bool_decide (ms ≠ [])), (bool_decide (gs ≠ [])); simpl in Hsame.
  - apply Forall2_cons_inv_l in Hsame as (p & ps & Hp & Hsame & Heq).
    apply Forall2_cons_inv_l in Hsame as (q & qs & Hq & Hsame & ->).
    apply Forall2_nil_inv_l in Hsame as ->.
    apply same_promise_inv in Hp, Hq. simpl in Hp, Hq.
    rewrite Heq in Hun. apply Forall_cons in Hun as [Hpp Hun].
    apply Forall_cons in Hun as [Hqp _].
    exists (settlement p), (settlement q).
    rewrite Heq, Hp, Hq. simpl. split; first done.
    rewrite Hp in Hpp. rewrite Hq in Hqp. done.
  - apply Forall2_cons_inv_l in Hsame as (p & ps & Hp & Hsame & Heq).
    apply Forall2_nil_inv_l in Hsame as ->.
    apply same_promise_inv in Hp. simpl in Hp.
    rewrite Heq in Hun. apply Forall_cons in Hun as [Hpp _].
    exists (settlement p), Pending.
    rewrite Heq, Hp. simpl. split; first done.
    rewrite Hp in Hpp. done.
  - apply Forall2_cons_inv_l in Hsame as (q & qs & Hq & Hsame & Heq).
    apply Forall2_nil_inv_l in Hsame as ->.
    apply same_promise_inv in Hq. simpl in Hq.
    rewrite Heq in Hun. apply Forall_cons in Hun as [Hqp _].
    exists Pending, (settlement q).
    rewrite Heq, Hq. simpl. split; first done.
    rewrite Hq in Hqp. done.
  - apply Forall2_nil_inv_l in Hsame as Heq.
    exists Pending, Pending. by rewrite Heq.
Qed.

(** C5: when the call of a batch resolves, whatever else has been answered
    before, the reply is followed by the data-received notification of that
    batch: it has the IDs and the interval of the request-started
    notification dispatched when the call was issued, and the data of the
    response. *)
Theorem data_received_matches_request ti w pre c r :
  let ms := meterIDsToFetchForLine (store w) ti in
  let gs := groupIDsToFetchForLine (store w) ti in
  let run := fetchNeededLineReadings ti w in
  let before := replies pre run.1 run.2 in
  let after := reply c (Resolves r) before.1 before.2 in
  c ∉ pre.*1 ->
  (ms ≠ [] -> c = calls w ->
     (exists l,
        log run.2 =
          log w ++ [Dispatched (REQUEST_METER_LINE_READINGS ms ti);
                    Issued c (metersGet ms ti)] ++ l)
     /\ log after.2 =
          log before.2 ++ [Replied c (Resolves r);
                           Dispatched (RECEIVE_METER_LINE_READINGS ms ti (data r))])
  /\ (gs ≠ [] -> c = (if bool_decide (ms ≠ []) then S (calls w) else calls w) ->
     (exists l,
        log run.2 =
          log w ++ l ++ [Dispatched (REQUEST_GROUP_LINE_READINGS gs ti);
                         Issued c (groupsGet gs ti)])
     /\ log after.2 =
          log before.2 ++ [Replied c (Resolves r);
                           Dispatched (RECEIVE_GROUP_LINE_READINGS gs ti (data r))]).
Proof.
  intros ms gs run before after Hc.
  destruct (fetchNeeded_inputs_later ti w pre) as (sm & sg & Hin & Hsm & Hsg).
  fold ms gs run before in Hin, Hsm, Hsg.
  pose proof (fetchNeeded_log ti w) as Hlog.
  cbv zeta in Hlog. fold ms gs run in Hlog.
  split.
  - intros Hms ->. rewrite (bool_decide_eq_true_2 _ Hms) in Hin, Hlog, Hsg.
    split; first by (eexists; rewrite Hlog).
    rewrite (Hsm Hc) in Hin. unfold after.
    rewrite (reply_resolves _ r before.1 [] _ _ _ Hin); try done.
    + simpl. by rewrite <- app_assoc.
    + apply not_elem_of_nil.
    + destruct (bool_decide (gs ≠ [])); simpl.
      * apply not_elem_of_cons. split; [lia | apply not_elem_of_nil].
      * apply not_elem_of_nil.
  - intros Hgs ->. rewrite (bool_decide_eq_true_2 _ Hgs) in Hin, Hlog.
    split; first by (eexists; rewrite Hlog).
    rewrite (Hsg Hc) in Hin. unfold after.
    rewrite (reply_resolves _ r before.1 _ _ [] _ Hin); try done.
    + simpl. by rewrite <- app_assoc.
    + destruct (bool_decide (ms ≠ [])); simpl.
      * apply not_elem_of_cons. split; [lia | apply not_elem_of_nil].
      * apply not_elem_of_nil.
    + apply not_elem_of_nil.
Qed.

(** While its call is unanswered, the promise of a batch is among the
    inputs of the combined promise, pending. *)
Lemma fetchNeeded_batch_pending ti w pre c :
  let ms := meterIDsToFetchForLine (store w) ti in
  let gs := groupIDsToFetchForLine (store w) ti in
  let run := fetchNeededLineReadings ti w in
  let before := replies pre run.1 run.2 in
  (ms ≠ [] /\ c = calls w)
  \/ (gs ≠ [] /\ c = (if bool_decide (ms ≠ []) then S (calls w) else calls w)) ->
  c ∉ pre.*1 ->
  exists p, p ∈ inputs before.1 /\ awaits p = c /\ is_pending p.
Proof.
  intros ms gs run before Hbatch Hc.
  destruct (fetchNeeded_inputs_later ti w pre) as (sm & sg & Hin & Hsm & Hsg).
  fold ms gs run before in Hin, Hsm, Hsg. rewrite Hin.
  destruct Hbatch as [[Hms ->]|[Hgs ->]].
  - rewrite (bool_decide_eq_true_2 _ Hms). rewrite (Hsm Hc).
    eexists. split; first by apply elem_of_app; left; apply list_elem_of_singleton.
    done.
  - rewrite (bool_decide_eq_true_2 _ Hgs). rewrite (Hsg Hc).
    eexists. split; first by apply elem_of_app; right; apply list_elem_of_singleton.
    done.
Qed.

(** C7: when the call of a batch is rejected, whatever else has been
    answered before, nothing is dispatched: the log gains the reply alone
    and the store stays as it is; the batch's promise is rejected with the
    reason of the call and ignores every later reply; the combined promise
    is rejected, with that reason unless an earlier rejection settled it. *)
Theorem rejection_propagates ti w pre c e :
  let ms := meterIDsToFetchForLine (store w) ti in
  let gs := groupIDsToFetchForLine (store w) ti in
  let run := fetchNeededLineReadings ti w in
  let before := replies pre run.1 run.2 in
  let after := reply c (Rejects e) before.1 before.2 in
  (ms ≠ [] /\ c = calls w)
  \/ (gs ≠ [] /\ c = (if bool_decide (ms ≠ []) then S (calls w) else calls w)) ->
  c ∉ pre.*1 ->
  log after.2 = log before.2 ++ [Replied c (Rejects e)]
  /\ dispatched (log after.2) = dispatched (log before.2)
  /\ store after.2 = store before.2
  /\ (exists p, p ∈ inputs after.1 /\ awaits p = c
                /\ settlement p = Rejected e
                /\ forall c' o' w', settle c' o' p w' = (p, w'))
  /\ (exists e', combined after.1 = Rejected e'
                 /\ (combined before.1 = Pending -> e' = e)).
Proof.
  intros ms gs run before after Hbatch Hc.
  destruct (fetchNeeded_batch_pending ti w pre c Hbatch Hc)
    as (p & Hin & Hpc & Hpp).
  fold run before in Hin.
  destruct (fetchNeeded_replies ti w pre) as (Hco & _ & _).
  fold run before in Hco.
  unfold after. split; [|split; [|split; [|split]]].
  - by rewrite reply_rejects.
  - rewrite reply_rejects. simpl. unfold dispatched.
    by rewrite omap_app, app_nil_r.
  - by rewrite reply_rejects.
  - exists (rejected_by c e p). rewrite reply_rejects. simpl.
    split; first by apply list_elem_of_fmap_2.
    split; first by rewrite rejected_by_awaits.
    pose proof (rejected_by_pending c e p Hpp Hpc) as Hrej.
    split; first done.
    intros c' o' w'. apply settle_settled. unfold is_pending. by rewrite Hrej.
  - apply reply_rejects_combined; first done. by exists p.
Qed.

(** *** Which IDs go into a batch *)

Lemma filter_sublist (f : Z -> bool) (l : list Z) : sublist (List.filter f l) l.
Proof.
  induction l as [|x l IH]; simpl; first done.
  destruct (f x); by constructor.
Qed.

(** X1: a batch holds selected IDs only, in the order of the selection, and
    an ID is in it exactly when it is selected and has no entry being
    fetched for the interval. *)
Theorem batches_hold_selected_ids_not_in_flight state ti :
  sublist (meterIDsToFetchForLine state ti) (selectedMeters (graph state))
  /\ sublist (groupIDsToFetchForLine state ti) (selectedGroups (graph state))
  /\ (forall id,
        id ∈ meterIDsToFetchForLine state ti <->
        id ∈ selectedMeters (graph state)
        /\ ¬ exists e,
             entryFor toString (byMeterID (line (readings state))) id ti = Some e
             /\ isFetching e = true)
  /\ (forall id,
        id ∈ groupIDsToFetchForLine state ti <->
        id ∈ selectedGroups (graph state)
        /\ ¬ exists e,
             entryFor toString (byGroupID (line (readings state))) id ti = Some e
             /\ isFetching e = true).
Proof.
  split; first apply filter_sublist. split; first apply filter_sublist.
  split; intros id.
  - rewrite metersToFetch_spec.
    destruct (entryFor _ (byMeterID _) id ti) as [e|].
    + split; intros [Hsel He]; (split; first done).
      * intros (e' & [= <-] & He'). congruence.
      * destruct (isFetching e) eqn:Hf; last done.
        exfalso. apply He. by exists e.
    + split; intros [Hsel _]; (split; first done); first by intros (e' & ? & _).
      done.
  - rewrite groupsToFetch_spec.
    destruct (entryFor _ (byGroupID _) id ti) as [e|].
    + split; intros [Hsel He]; (split; first done).
      * intros (e' & [= <-] & He'). congruence.
      * destruct (isFetching e) eqn:Hf; last done.
        exfalso. apply He. by exists e.
    + split; intros [Hsel _]; (split; first done); first by intros (e' & ? & _).
      done.
Qed.

(** *** The completion signal *)

(** X2: as long as the call of one of the batches is unanswered, the
    promise returned by [fetchNeededLineReadings] is not fulfilled. *)
Theorem completion_waits_for_every_call ti w pre c :
  let ms := meterIDsToFetchForLine (store w) ti in
  let gs := groupIDsToFetchForLine (store w) ti in
  let run := fetchNeededLineReadings ti w in
  let before := replies pre run.1 run.2 in
  (ms ≠ [] /\ c = calls w)
  \/ (gs ≠ [] /\ c = (if bool_decide (ms ≠ []) then S (calls w) else calls w)) ->
  c ∉ pre.*1 ->
  forall l, combined before.1 ≠ Fulfilled l.
Proof.
  intros ms gs run before Hbatch Hc l Hl.
  destruct (fetchNeeded_batch_pending ti w pre c Hbatch Hc)
    as (p & Hin & _ & Hp).
  destruct (fetchNeeded_replies ti w pre) as (Hco & _ & _).
  fold run before in Hin, Hco. unfold coherent in Hco. rewrite Hl in Hco.
  destruct Hco as [Heq|[e He]]; last done.
  symmetry in Heq. apply all_values_fulfilled in Heq.
  by eapply Forall_forall in Heq.
Qed.

Lemma eqb_succ n : (S n =? n) = false.
Proof. apply Nat.eqb_neq. lia. Qed.

Lemma eqb_pred n : (n =? S n) = false.
Proof. apply Nat.eqb_neq. lia. Qed.

(** X3: when both batches are issued and both calls resolve, in either
    order, the promise returned by [fetchNeededLineReadings] is fulfilled
    with the two data-received actions, the meters' first; with one call
    resolved and the other unanswered it is pending. *)
Theorem completion_value_in_batch_order ti w r1 r2 :
  let ms := meterIDsToFetchForLine (store w) ti in
  let gs := groupIDsToFetchForLine (store w) ti in
  let run := fetchNeededLineReadings ti w in
  let cm := calls w in
  let cg := S (calls w) in
  let value := [RECEIVE_METER_LINE_READINGS ms ti (data r1);
                RECEIVE_GROUP_LINE_READINGS gs ti (data r2)] in
  ms ≠ [] -> gs ≠ [] ->
  combined (replies [(cm, Resolves r1); (cg, Resolves r2)] run.1 run.2).1
    = Fulfilled value
  /\ combined (replies [(cg, Resolves r2); (cm, Resolves r1)] run.1 run.2).1
    = Fulfilled value
  /\ combined (replies [(cm, Resolves r1)] run.1 run.2).1 = Pending
  /\ combined (replies [(cg, Resolves r2)] run.1 run.2).1 = Pending.
Proof.
  intros ms gs run cm cg value Hms Hgs. unfold run, cm, cg.
  rewrite fetchNeeded_run. fold ms gs.
  rewrite !(bool_decide_eq_true_2 _ Hms), !(bool_decide_eq_true_2 _ Hgs).
  rewrite !fetchMeters_run. cbn [fst snd app].
  rewrite !fetchGroups_run. cbn [fst snd app calls].
  unfold replies, reply, bind, ret, Promise_all, then_.
  cbn -[Nat.eqb]. rewrite ?Nat.eqb_refl, ?eqb_succ, ?eqb_pred.
  cbn -[Nat.eqb]. rewrite ?Nat.eqb_refl, ?eqb_succ, ?eqb_pred.
  done.
Qed.

(** X4: when both batches are issued and the call of one is rejected, the
    other batch is not affected: its data-received notification is
    dispatched when its call resolves, before or after the rejection, and
    nothing is dispatched for the rejected batch; the promise returned by
    [fetchNeededLineReadings] is rejected with the reason of the call. *)
Theorem batches_settle_independently ti w e r :
  let ms := meterIDsToFetchForLine (store w) ti in
  let gs := groupIDsToFetchForLine (store w) ti in
  let run := fetchNeededLineReadings ti w in
  let cm := calls w in
  let cg := S (calls w) in
  let requested := [REQUEST_METER_LINE_READINGS ms ti;
                    REQUEST_GROUP_LINE_READINGS gs ti] in
  ms ≠ [] -> gs ≠ [] ->
  (forall sched,
     sched = [(cm, Rejects e); (cg, Resolves r)]
     \/ sched = [(cg, Resolves r); (cm, Rejects e)] ->
     dispatched (log (replies sched run.1 run.2).2) =
       dispatched (log w) ++ requested
       ++ [RECEIVE_GROUP_LINE_READINGS gs ti (data r)]
     /\ combined (replies sched run.1 run.2).1 = Rejected e)
  /\ (forall sched,
        sched = [(cg, Rejects e); (cm, Resolves r)]
        \/ sched = [(cm, Resolves r); (cg, Rejects e)] ->
        dispatched (log (replies sched run.1 run.2).2) =
          dispatched (log w) ++ requested
          ++ [RECEIVE_METER_LINE_READINGS ms ti (data r)]
        /\ combined (replies sched run.1 run.2).1 = Rejected e).
Proof.
  intros ms gs run cm cg requested Hms Hgs. unfold run, cm, cg, requested.
  rewrite fetchNeeded_run. fold ms gs.
  rewrite !(bool_decide_eq_true_2 _ Hms), !(bool_decide_eq_true_2 _ Hgs).
  rewrite !fetchMeters_run. cbn [fst snd app].
  rewrite !fetchGroups_run. cbn [fst snd app calls].
  split; intros sched [-> | ->];
    unfold replies, reply, Promise_all, then_, dispatched;
    repeat (progress (cbn -[Nat.eqb omap];
                      unfold bind, ret, dispatch;
                      rewrite ?Nat.eqb_refl, ?eqb_succ, ?eqb_pred));
    rewrite !omap_app; cbn; rewrite <- ?app_assoc, ?app_nil_r; done.
Qed.

(** *** The ID segment of the request path *)

Lemma app_cons a (s t : string) : String a s +:+ t = String a (s +:+ t).
Proof. reflexivity. Qed.

Lemma pretty_N_char_comma_free x :
  Ascii.eqb (pretty_N_char x) ","%char = false.
Proof. unfold pretty_N_char. by repeat case_match. Qed.

Lemma pretty_N_go_digits x s :
  comma_free s = true /\ s ≠ "" ->
  comma_free (pretty_N_go x s) = true /\ pretty_N_go x s ≠ "".
Proof.
  revert s. induction (N.lt_wf_0 x) as [x _ IH]; intros s [Hs Hne].
  destruct (decide (x = 0)%N) as [->|Hx]; first by rewrite pretty_N_go_0.
  rewrite pretty_N_go_step by lia. apply IH.
  - apply N.div_lt; lia.
  - split; last done. simpl. by rewrite pretty_N_char_comma_free.
Qed.

Lemma pretty_N_digits (x : N) :
  comma_free (pretty x) = true /\ pretty x ≠ "".
Proof.
  unfold pretty, pretty_N. destruct (decide (x = 0)%N) as [->|Hx]; first done.
  rewrite pretty_N_go_step by lia. apply pretty_N_go_digits.
  split; last done. simpl. by rewrite pretty_N_char_comma_free.
Qed.

Lemma pretty_Z_digits (z : Z) :
  comma_free (pretty z) = true /\ pretty z ≠ "".
Proof.
  unfold pretty, pretty_Z. destruct z as [|p|p].
  - done.
  - apply pretty_N_digits.
  - destruct (pretty_N_digits (N.pos p)) as [Hc Hne].
    split; last done. rewrite app_cons. simpl. exact Hc.
Qed.

(** Two comma-free strings, each followed by nothing or by a comma and
    more, are equal when the whole strings are. *)
Lemma comma_split (s1 s2 t1 t2 : string) :
  comma_free s1 = true -> comma_free s2 = true ->
  (t1 = "" \/ exists u, t1 = String "," u) ->
  (t2 = "" \/ exists u, t2 = String "," u) ->
  s1 +:+ t1 = s2 +:+ t2 -> s1 = s2 /\ t1 = t2.
Proof.
  revert s2. induction s1 as [|a s1 IH]; intros [|b s2] H1 H2 Ht1 Ht2 Heq.
  - done.
  - exfalso. change ("" +:+ t1) with t1 in Heq. rewrite app_cons in Heq.
    simpl in H2. apply andb_true_iff in H2 as [Hb _].
    destruct Ht1 as [->|[u ->]]; first done.
    injection Heq as <- _. done.
  - exfalso. change ("" +:+ t2) with t2 in Heq. rewrite app_cons in Heq.
    simpl in H1. apply andb_true_iff in H1 as [Ha _].
    destruct Ht2 as [->|[u ->]]; first done.
    injection Heq as -> _. done.
  - rewrite !app_cons in Heq. injection Heq as -> Heq.
    simpl in H1, H2.
    apply andb_true_iff in H1 as [_ H1]. apply andb_true_iff in H2 as [_ H2].
    destruct (IH s2 H1 H2 Ht1 Ht2 Heq) as [-> ->]. done.
Qed.

Lemma join_cons id ids :
  join "," (id :: ids) =
    pretty id +:+ match ids with [] => "" | _ => "," +:+ join "," ids end.
Proof.
  unfold join. destruct ids as [|id' ids]; simpl.
  - clear. induction (pretty id) as [|a s IH]; first done.
    by rewrite app_cons, <- IH.
  - done.
Qed.

Lemma join_nonempty ids : ids ≠ [] -> join "," ids ≠ "".
Proof.
  destruct ids as [|id ids]; first done. intros _.
  rewrite join_cons. destruct (pretty_Z_digits id) as [_ Hne].
  destruct (pretty id) as [|a s]; first done. by rewrite app_cons.
Qed.

(** X5: the ID segment of a request path determines the IDs of the batch:
    two lists of IDs are joined to the same string only when they are the
    same list. *)
Theorem join_injective (ids1 ids2 : list Z) :
  join "," ids1 = join "," ids2 <-> ids1 = ids2.
Proof.
  split; last by intros ->.
  revert ids2. induction ids1 as [|x l1 IH]; intros [|y l2] Heq.
  - done.
  - exfalso. by eapply (join_nonempty (y :: l2)).
  - exfalso. by eapply (join_nonempty (x :: l1)).
  - rewrite !join_cons in Heq.
    destruct (pretty_Z_digits x) as [Hx _], (pretty_Z_digits y) as [Hy _].
    apply comma_split in Heq as [Hxy Htl]; try done.
    + apply (inj pretty) in Hxy as ->. f_equal.
      destruct l1 as [|x1 l1], l2 as [|y1 l2]; try done.
      apply IH. by injection Htl.
    + destruct l1; [by left | right; by eexists].
    + destruct l2; [by left | right; by eexists].
Qed.

(** X6: every network call of an invocation names at least one ID: its
    path is one of the two prefixes followed by the non-empty string of the
    joined IDs of a non-empty batch. *)
Theorem every_call_names_an_id ti w :
  exists evs,
    log (fetchNeededLineReadings ti w).2 = log w ++ evs
    /\ Forall (fun cr =>
         exists ids, ids ≠ [] /\ join "," ids ≠ ""
           /\ (cr.2 = AxiosGet ("/api/readings/line/meters/" +:+ join "," ids)
                               [("timeInterval", toString ti)]
               \/ cr.2 = AxiosGet ("/api/readings/line/groups/" +:+ join "," ids)
                                  [("timeInterval", toString ti)]))
         (issued evs).
Proof.
  eexists. split; first apply fetchNeeded_log.
  set (ms := meterIDsToFetchForLine (store w) ti).
  set (gs := groupIDsToFetchForLine (store w) ti).
  assert (forall ids, bool_decide (ids ≠ []) = true ->
            ids ≠ [] /\ join "," ids ≠ "") as Hids.
  { intros ids Hb. apply bool_decide_eq_true in Hb.
    split; [done | by apply join_nonempty]. }
  destruct (bool_decide (ms ≠ [])) eqn:Hms;
    destruct (bool_decide (gs ≠ [])) eqn:Hgs; simpl.
  - destruct (Hids ms Hms) as [? ?], (Hids gs Hgs) as [? ?].
    constructor; [|constructor; [|constructor]].
    + exists ms. eauto.
    + exists gs. eauto.
  - destruct (Hids ms Hms) as [? ?].
    constructor; [|constructor]. exists ms. eauto.
  - destruct (Hids gs Hgs) as [? ?].
    constructor; [|constructor]. exists gs. eauto.
  - constructor.
Qed.

(** *** A second invocation *)

Lemma filter_none (f : Z -> bool) (l : list Z) :
  (forall x, x ∈ l -> f x = false) -> List.filter f l = [].
Proof.
  induction l as [|x l IH]; intros H; simpl; first done.
  rewrite (H x) by (by left). apply IH. intros y Hy. apply H. by right.
Qed.

Lemma filter_chosen (f : Z -> bool) (l : list Z) x :
  x ∈ l -> f x = true -> x ∈ List.filter f l.
Proof.
  intros Hx Hf. apply list_elem_of_In, filter_In.
  by rewrite <- list_elem_of_In.
Qed.

Lemma fetchNeeded_store ti w :
  let ms := meterIDsToFetchForLine (store w) ti in
  let gs := groupIDsToFetchForLine (store w) ti in
  let s1 := if bool_decide (ms ≠ [])
            then reducer (store w) (REQUEST_METER_LINE_READINGS ms ti)
            else store w in
  store (fetchNeededLineReadings ti w).2 =
    if bool_decide (gs ≠ [])
    then reducer s1 (REQUEST_GROUP_LINE_READINGS gs ti)
    else s1.
Proof.
  intros ms gs s1. unfold s1. rewrite fetchNeeded_run. fold ms gs.
  destruct (bool_decide (ms ≠ [])), (bool_decide (gs ≠ [])); simpl;
    rewrite ?fetchMeters_run, ?fetchGroups_run; done.
Qed.

(** X7: on a store whose reducer marks the requested IDs as being fetched,
    a second invocation for the same interval, made before any reply has
    arrived, dispatches nothing and issues no call. *)
Theorem second_invocation_fetches_nothing ti w :
  marks_requests toString reducer ->
  let run := fetchNeededLineReadings ti w in
  fetchNeededLineReadings ti run.2 = (mkAll [] (Fulfilled []), run.2).
Proof.
  intros Hmarks run.
  set (ms := meterIDsToFetchForLine (store w) ti).
  set (gs := groupIDsToFetchForLine (store w) ti).
  set (s1 := if bool_decide (ms ≠ [])
             then reducer (store w) (REQUEST_METER_LINE_READINGS ms ti)
             else store w).
  assert (store run.2 =
            if bool_decide (gs ≠ [])
            then reducer s1 (REQUEST_GROUP_LINE_READINGS gs ti)
            else s1) as Hstore by apply fetchNeeded_store.
  assert (graph s1 = graph (store w)
          /\ (forall id, id ∈ ms \/ shouldFetchMeterLineReadings (store w) id ti = false ->
                         shouldFetchMeterLineReadings s1 id ti = false)
          /\ (forall id, shouldFetchGroupLineReadings (store w) id ti = false ->
                         shouldFetchGroupLineReadings s1 id ti = false))
    as (Hg1 & Hm1 & Hgr1).
  { unfold s1. destruct (bool_decide (ms ≠ [])) eqn:Hms.
    - destruct (Hmarks (store w) ms ti) as (Hg & _ & Hm & Hgr & _). done.
    - apply bool_decide_eq_false in Hms.
      assert (ms = []) as Hnil.
      { destruct (decide (ms = [])) as [Hnil|Hne]; [done | by destruct Hms]. }
      repeat split; try done. intros id [Hin|Hf]; last done.
      rewrite Hnil in Hin. by apply elem_of_nil in Hin. }
  assert (graph (store run.2) = graph (store w)
          /\ (forall id, id ∈ ms \/ shouldFetchMeterLineReadings (store w) id ti = false ->
                         shouldFetchMeterLineReadings (store run.2) id ti = false)
          /\ (forall id, id ∈ gs \/ shouldFetchGroupLineReadings (store w) id ti = false ->
                         shouldFetchGroupLineReadings (store run.2) id ti = false))
    as (Hg2 & Hm2 & Hgr2).
  { rewrite Hstore. destruct (bool_decide (gs ≠ [])) eqn:Hgs.
    - destruct (Hmarks s1 gs ti) as (_ & Hg & _ & _ & Hgr & Hm).
      split; first by rewrite Hg. split.
      + intros id H. apply Hm, Hm1, H.
      + intros id [Hin|Hf]; apply Hgr; [by left | right; by apply Hgr1].
    - apply bool_decide_eq_false in Hgs.
      assert (gs = []) as Hnil.
      { destruct (decide (gs = [])) as [Hnil|Hne]; [done | by destruct Hgs]. }
      split; first done. split; first done.
      intros id [Hin|Hf]; last by apply Hgr1.
      rewrite Hnil in Hin. by apply elem_of_nil in Hin. }
  rewrite fetchNeeded_run.
  assert (meterIDsToFetchForLine (store run.2) ti = []) as ->.
  { apply filter_none. intros id Hid. rewrite Hg2 in Hid. apply Hm2.
    destruct (shouldFetchMeterLineReadings (store w) id ti) eqn:Hf; last by right.
    left. by apply filter_chosen. }
  assert (groupIDsToFetchForLine (store run.2) ti = []) as ->.
  { apply filter_none. intros id Hid. rewrite Hg2 in Hid. apply Hgr2.
    destruct (shouldFetchGroupLineReadings (store w) id ti) eqn:Hf; last by right.
    left. by apply filter_chosen. }
  done.
Qed.

End Facts.

(** *** The theorems at work on concrete stores *)

Import Scenario.

Local Abbreviation fetchNeededX :=
  (fetchNeededLineReadings (Err:=string) toString keep "X").

(** C1: meters 1, 2 and 3 are selected and meter 2 already holds its
    readings for "X" ([isFetching] is [false]); the batch that is requested
    has all three IDs, meter 2 included. *)
Theorem resolved_entry_is_fetched_again :
  entryFor toString (byMeterID (line (readings oneResolved))) 2 "X"
    = Some resolved
  /\ isFetching resolved = false
  /\ shouldFetchMeterLineReadings toString oneResolved 2 "X" = true
  /\ log (fetchNeededX (start oneResolved)).2 =
       [Dispatched (REQUEST_METER_LINE_READINGS [1; 2; 3]%Z "X");
        Issued 0 (AxiosGet "/api/readings/line/meters/1,2,3"
                           [("timeInterval", "X")])].
Proof. vm_compute. done. Qed.

(** A whole run: meter 1 and group 7 are fetched, the group call resolves
    first, then the meter call is rejected. *)
Example run_oneInFlight :
  let run := fetchNeededX (start oneInFlight) in
  let r := mkResponse [(0, 5)]%Z in
  let done := replies [(1, Resolves r); (0, Rejects "503")] run.1 run.2 in
  log done.2 =
    [Dispatched (REQUEST_METER_LINE_READINGS [1]%Z "X");
     Issued 0 (AxiosGet "/api/readings/line/meters/1" [("timeInterval", "X")]);
     Dispatched (REQUEST_GROUP_LINE_READINGS [7]%Z "X");
     Issued 1 (AxiosGet "/api/readings/line/groups/7" [("timeInterval", "X")]);
     Replied 1 (Resolves r);
     Dispatched (RECEIVE_GROUP_LINE_READINGS [7]%Z "X" [(0, 5)]%Z);
     Replied 0 (Rejects "503")]
  /\ combined run.1 = Pending
  /\ combined done.1 = Rejected "503".
Proof. vm_compute. done. Qed.

Example join_ids : join "," [12; 0; -3]%Z = "12,0,-3".
Proof. reflexivity. Qed.

Lemma meter_group_predicates_agree_witness :
  shouldFetchMeterLineReadings toString oneInFlight 3 "X"
  = shouldFetchGroupLineReadings toString oneInFlightGroup 3 "X".
Proof.
  apply (meter_group_predicates_agree toString oneInFlight oneInFlightGroup).
  reflexivity.
Defined.

Lemma nothing_to_fetch_witness :
  fetchNeededX (start allInFlight)
  = (mkAll [] (Fulfilled []), start allInFlight).
Proof.
  apply (nothing_to_fetch toString keep "X" (start allInFlight)).
  right. split; repeat constructor.
Defined.

(** The group call (call 1) has been rejected; then the meter call
    (call 0) resolves. *)
Lemma data_received_matches_request_witness :
  let run := fetchNeededX (start oneInFlight) in
  let before := replies [(1, Rejects "503")] run.1 run.2 in
  let r := mkResponse [(0, 5)]%Z in
  log (reply 0 (Resolves r) before.1 before.2).2 =
    log before.2 ++ [Replied 0 (Resolves r);
                     Dispatched (RECEIVE_METER_LINE_READINGS [1]%Z "X" (data r))].
Proof.
  intros run before r.
  refine (proj2 (proj1 (data_received_matches_request toString keep "X"
                   (start oneInFlight) [(1, Rejects "503")] 0 r _) _ _)).
  - simpl. intros H. apply list_elem_of_singleton in H. discriminate H.
  - vm_compute. discriminate.
  - reflexivity.
Defined.

(** The meter call (call 0) has resolved; then the group call (call 1) is
    rejected. *)
Lemma rejection_propagates_witness :
  let run := fetchNeededX (start oneInFlight) in
  let before := replies [(0, Resolves (mkResponse [(0, 5)]%Z))] run.1 run.2 in
  let after := reply 1 (Rejects "503") before.1 before.2 in
  log after.2 = log before.2 ++ [Replied 1 (Rejects "503")]
  /\ combined after.1 = Rejected "503".
Proof.
  intros run before after.
  destruct (rejection_propagates toString keep "X" (start oneInFlight)
              [(0, Resolves (mkResponse [(0, 5)]%Z))] 1 "503")
    as (Hlog & _ & _ & _ & (e' & He' & Hfirst)).
  - right. split; [vm_compute; discriminate | reflexivity].
  - simpl. intros H. apply list_elem_of_singleton in H. discriminate H.
  - split; first exact Hlog.
    assert (e' = "503") as <- by (apply Hfirst; reflexivity).
    exact He'.
Defined.

(** *** The marking store *)

Lemma markFetching_entryFor ti ids cache id :
  entryFor toString (markFetching ti ids cache) id ti =
    if decide (id ∈ ids) then Some inFlight
    else entryFor toString cache id ti.
Proof.
  induction ids as [|x l IH]; simpl.
  { destruct (decide (id ∈ [])) as [Hin|_]; last done.
    by apply elem_of_nil in Hin. }
  unfold entryFor in *. destruct (decide (id = x)) as [->|Hne].
  - rewrite lookup_insert_eq, lookup_insert_eq.
    destruct (decide (x ∈ x :: l)) as [_|Hn]; first done.
    exfalso. apply Hn. by left.
  - rewrite lookup_insert_ne by done. rewrite IH.
    destruct (decide (id ∈ l)) as [Hin|Hn];
      destruct (decide (id ∈ x :: l)) as [Hin'|Hn']; try done.
    + exfalso. apply Hn'. by right.
    + apply elem_of_cons in Hin' as [?|?]; done.
Qed.

Lemma marking_marks_requests : marks_requests toString marking.
Proof.
  intros s ids ti sm sg. unfold sm, sg.
  split; first done. split; first done.
  split; [|split; [|split]]; intros id.
  - rewrite !shouldFetchMeter_entryFor. simpl.
    rewrite markFetching_entryFor.
    destruct (decide (id ∈ ids)) as [Hin|Hn]; first done.
    by intros [Hin|Hf].
  - done.
  - rewrite !shouldFetchGroup_entryFor. simpl.
    rewrite markFetching_entryFor.
    destruct (decide (id ∈ ids)) as [Hin|Hn]; first done.
    by intros [Hin|Hf].
  - done.
Qed.

Local Abbreviation fetchNeededMarking :=
  (fetchNeededLineReadings (Err:=string) toString marking "X").

(** Meter 1 and group 7 are requested; asking again at once requests
    nothing. *)
Lemma second_invocation_fetches_nothing_witness :
  let run := fetchNeededMarking (start oneInFlight) in
  (issued (log run.2)).*1 = [0; 1]
  /\ fetchNeededMarking run.2 = (mkAll [] (Fulfilled []), run.2).
Proof.
  intros run. split; first by vm_compute.
  apply (second_invocation_fetches_nothing toString marking "X"
           (start oneInFlight) marking_marks_requests).
Defined.

(** The group call (call 1) is unanswered after the meter call has
    resolved. *)
Lemma completion_waits_for_every_call_witness :
  let run := fetchNeededX (start oneInFlight) in
  let before := replies [(0, Resolves (mkResponse [(0, 5)]%Z))] run.1 run.2 in
  combined before.1 = Pending
  /\ forall l, combined before.1 ≠ Fulfilled l.
Proof.
  split; first by vm_compute.
  apply (completion_waits_for_every_call toString keep "X" (start oneInFlight)
           [(0, Resolves (mkResponse [(0, 5)]%Z))] 1).
  - right. split; [vm_compute; discriminate | reflexivity].
  - simpl. intros H. apply list_elem_of_singleton in H. discriminate H.
Defined.

Lemma completion_value_in_batch_order_witness :
  let run := fetchNeededX (start oneInFlight) in
  let r1 := mkResponse [(0, 5)]%Z in
  let r2 := mkResponse [(0, 8)]%Z in
  combined (replies [(1, Resolves r2); (0, Resolves r1)] run.1 run.2).1
  = Fulfilled [RECEIVE_METER_LINE_READINGS [1]%Z "X" [(0, 5)]%Z;
               RECEIVE_GROUP_LINE_READINGS [7]%Z "X" [(0, 8)]%Z].
Proof.
  intros run r1 r2.
  refine (proj1 (proj2 (completion_value_in_batch_order toString keep "X"
                          (start oneInFlight) r1 r2 _ _))).
  - vm_compute. discriminate.
  - vm_compute. discriminate.
Defined.

(** The meter call (call 0) is rejected after the group call (call 1) has
    resolved. *)
Lemma batches_settle_independently_witness :
  let run := fetchNeededX (start oneInFlight) in
  let r := mkResponse [(0, 8)]%Z in
  let done := replies [(1, Resolves r); (0, Rejects "503")] run.1 run.2 in
  dispatched (log done.2) =
    [REQUEST_METER_LINE_READINGS [1]%Z "X";
     REQUEST_GROUP_LINE_READINGS [7]%Z "X";
     RECEIVE_GROUP_LINE_READINGS [7]%Z "X" [(0, 8)]%Z]
  /\ combined done.1 = Rejected "503".
Proof.
  intros run r done.
  refine (proj1 (batches_settle_independently toString keep "X"
                   (start oneInFlight) "503" r _ _) _ _).
  - vm_compute. discriminate.
  - vm_compute. discriminate.
  - by right.
Defined.

End LineReadingsFacts.

(* ===================================================================== *)
(** ** Facts about the units-details action *)
(* ===================================================================== *)

Module UnitsFacts.
Import Thunk ThunkFacts Units.

Section Facts.

Context {State UnitData Err : Type}.

Local Abbreviation Action := (@Action UnitData).
Local Abbreviation World := (World State Action Request (list UnitData) Err).

Variable reducer : State -> Action -> State.

Local Abbreviation fetchUnitsDetails :=
  (Units.fetchUnitsDetails (Err:=Err) reducer).

(** C8: whatever the store holds, [Units.fetchUnitsDetails] dispatches the
    request-started notification, then issues the one call, which has no
    argument, and nothing else; when the call resolves, the data-received
    notification carries the list that came back. *)
Theorem fetchUnitsDetails_always_fetches (w : World) :
  let run := fetchUnitsDetails w in
  log run.2 =
    log w ++ [Dispatched RequestUnitsDetails; Issued (calls w) UnitsApiDetails]
  /\ store run.2 = reducer (store w) RequestUnitsDetails
  /\ calls run.2 = S (calls w)
  /\ awaits run.1 = calls w
  /\ settlement run.1 = Pending
  /\ forall (unitsDetails : list UnitData) (w' : World),
       let later := settle (calls w) (Resolves unitsDetails) run.1 w' in
       log later.2 = log w' ++ [Dispatched (ReceiveUnitsDetails unitsDetails)]
       /\ store later.2 = reducer (store w') (ReceiveUnitsDetails unitsDetails)
       /\ calls later.2 = calls w'
       /\ settlement later.1 = Fulfilled tt.
Proof.
  unfold Units.fetchUnitsDetails, bind, dispatch, issue, ret. simpl.
  rewrite <- app_assoc. repeat split.
  all: unfold settle, then_; simpl; rewrite Nat.eqb_refl; done.
Qed.

(** X8: the awaited call is not wrapped in a [try]: its rejection rejects
    the thunk's promise with the same reason and leaves the world as it
    is, so no data-received notification is dispatched. *)
Lemma fetchUnitsDetails_rejection (w w' : World) (e : Err) :
  let run := fetchUnitsDetails w in
  let later := settle (calls w) (Rejects e) run.1 w' in
  later.2 = w' /\ settlement later.1 = Rejected e.
Proof.
  unfold Units.fetchUnitsDetails, bind, dispatch, issue, ret. simpl.
  rewrite settle_rejects. simpl. unfold rejected_by, then_. simpl.
  by rewrite Nat.eqb_refl.
Qed.

(** X9: [fetchUnitsDetails] does not look for a request in flight: called
    again before the first call is answered, it dispatches the
    request-started notification again and issues a second call, and the
    two promises wait for different calls. *)
Theorem fetchUnitsDetails_twice (w : World) :
  let first := fetchUnitsDetails w in
  let second := fetchUnitsDetails first.2 in
  log second.2 =
    log w ++ [Dispatched RequestUnitsDetails; Issued (calls w) UnitsApiDetails;
              Dispatched RequestUnitsDetails; Issued (S (calls w)) UnitsApiDetails]
  /\ awaits first.1 = calls w
  /\ awaits second.1 = S (calls w)
  /\ settlement first.1 = Pending
  /\ settlement second.1 = Pending.
Proof.
  unfold Units.fetchUnitsDetails, bind, dispatch, issue, ret. simpl.
  rewrite <- !app_assoc. done.
Qed.

End Facts.
End UnitsFacts.
